(** * The port scanner of osint.py: model and properties

    A shallow embedding of [PUERTOS_COMUNES], [escan_puerto],
    [escanear_puertos_comunes] and [geo_ip] from [osint.py].

    - Python [int] is [Z]; [str] is the list of its code points; [bytes] is
      [list byte]; a [dict] is an association list in insertion order.
    - The sockets of a probe live in an explicit world (descriptor table and
      call log) threaded by a state-and-exception monad; what the network
      answers is an oracle [red].
    - [ThreadPoolExecutor] is a labelled transition system over worker
      threads, a work queue and the list of futures. *)

From Stdlib Require Import ZArith NArith String Ascii Lia.
From Stdlib.Strings Require Import Byte.
From stdpp Require Import base option numbers list sorting.

Local Open Scope Z_scope.

(** ** Python values *)

(** A [str]: the sequence of its Unicode code points. *)
Definition str := list N.

(** An ASCII string literal of the source. *)
Definition py (s : string) : str :=
  map N_of_ascii (list_ascii_of_string s).

(** A [dict] with [int] keys, in insertion order. *)
Definition dict (V : Type) := list (Z * V).

Fixpoint dict_set {V} (d : dict V) (k : Z) (v : V) : dict V :=
  match d with
  | [] => [(k, v)]
  | (k', v') :: d' =>
      if Z.eqb k' k then (k', v) :: d' else (k', v') :: dict_set d' k v
  end.

(** [{k1: v1, k2: v2, ...}]: the items are stored from left to right. *)
Definition dict_literal {V} (items : list (Z * V)) : dict V :=
  foldl (fun d kv => dict_set d (fst kv) (snd kv)) [] items.

(** [d.get(k, default)] *)
Fixpoint dict_get {V} (d : dict V) (k : Z) (default : V) : V :=
  match d with
  | [] => default
  | (k', v) :: d' => if Z.eqb k' k then v else dict_get d' k default
  end.

(** [list(d.keys())] *)
Definition dict_keys {V} (d : dict V) : list Z := map fst d.

(** ** Configuration *)

Definition PUERTOS_COMUNES : dict str :=
  Eval cbv in dict_literal
    [ (21, py "FTP");
      (22, py "SSH");
      (23, py "Telnet");
      (25, py "SMTP");
      (53, py "DNS");
      (80, py "HTTP");
      (110, py "POP3");
      (111, py "RPC");
      (135, py "RPC");
      (139, py "NetBIOS");
      (143, py "IMAP");
      (443, py "HTTPS");
      (445, py "SMB");
      (993, py "IMAPS");
      (995, py "POP3S");
      (1723, py "PPTP");
      (3306, py "MySQL");
      (3389, py "RDP");
      (5432, py "PostgreSQL");
      (5900, py "VNC");
      (6379, py "Redis");
      (8080, py "HTTP-Alt");
      (8443, py "HTTPS-Alt") ].

(** ** [bytes.decode('utf-8', errors='ignore')]

    The decoder of the Python runtime: a well-formed sequence yields its code
    point; an invalid start byte is dropped; a sequence broken by a byte that
    cannot continue it is dropped up to that byte, and decoding resumes there;
    a sequence cut short by the end of the data is dropped. Overlong forms,
    surrogates and code points above U+10FFFF are not well formed. *)

Local Open Scope N_scope.

Definition is_continuation (b : N) : bool := N.land b 0xC0 =? 0x80.

Fixpoint utf8_decode_ignore (s : list N) : str :=
  match s with
  | [] => []
  | ch :: s1 =>
      if ch <? 0x80 then ch :: utf8_decode_ignore s1
      else if ch <? 0xC2 then utf8_decode_ignore s1
      else if ch <? 0xE0 then
        match s1 with
        | [] => []
        | ch2 :: s2 =>
            if is_continuation ch2
            then N.lor (N.shiftl (N.land ch 0x1F) 6) (N.land ch2 0x3F)
                   :: utf8_decode_ignore s2
            else utf8_decode_ignore s1
        end
      else if ch <? 0xF0 then
        match s1 with
        | [] => []
        | ch2 :: s2 =>
            if negb (is_continuation ch2)
               || (if ch2 <? 0xA0 then ch =? 0xE0 else ch =? 0xED)
            then utf8_decode_ignore s1
            else
              match s2 with
              | [] => []
              | ch3 :: s3 =>
                  if is_continuation ch3
                  then N.lor (N.shiftl (N.land ch 0x0F) 12)
                         (N.lor (N.shiftl (N.land ch2 0x3F) 6)
                                (N.land ch3 0x3F))
                         :: utf8_decode_ignore s3
                  else utf8_decode_ignore s2
              end
        end
      else if ch <? 0xF5 then
        match s1 with
        | [] => []
        | ch2 :: s2 =>
            if negb (is_continuation ch2)
               || (if ch2 <? 0x90 then ch =? 0xF0 else ch =? 0xF4)
            then utf8_decode_ignore s1
            else
              match s2 with
              | [] => []
              | ch3 :: s3 =>
                  if negb (is_continuation ch3) then utf8_decode_ignore s2
                  else
                    match s3 with
                    | [] => []
                    | ch4 :: s4 =>
                        if is_continuation ch4
                        then N.lor (N.shiftl (N.land ch 0x07) 18)
                               (N.lor (N.shiftl (N.land ch2 0x3F) 12)
                                  (N.lor (N.shiftl (N.land ch3 0x3F) 6)
                                         (N.land ch4 0x3F)))
                               :: utf8_decode_ignore s4
                        else utf8_decode_ignore s3
                    end
              end
        end
      else utf8_decode_ignore s1
  end.

(** [data.decode('utf-8', errors='ignore')] *)
Definition decode_utf8_ignore (data : list byte) : str :=
  utf8_decode_ignore (map Byte.to_N data).



Local Close Scope N_scope.

(** ** Exceptions and the socket layer *)

(** The exceptions of the model.  A bare [except:] catches all of them alike;
    [except Exception] lets [KeyboardInterrupt] through. *)
Inductive exn :=
  | OSError (errno : Z)
  | socket_timeout
  | socket_gaierror
  | RequestException
  | ValueError
  | AttributeError
  | KeyboardInterrupt.


Inductive outcome (A : Type) :=
  | Ok (a : A)
  | Raise (e : exn).
Arguments Ok {A} a.
Arguments Raise {A} e.

(** [(ip, puerto)] *)
Definition direccion : Type := str * Z.

(** What the network and the operating system answer to the calls of one
    probe.  [net_socket k] is the outcome of creating the socket that gets
    descriptor [k]; [net_connect_ex] answers the first connection with an
    [errno] (0 on success, the code of a refusal or of an expired timeout
    otherwise) or raises (name resolution); [net_connect], [net_send] and
    [net_recv] answer the second connection, [net_recv] with the bytes the
    peer has sent. *)
Record red := {
  net_socket : nat -> option exn;
  net_connect_ex : direccion -> outcome Z;
  net_connect : direccion -> option exn;
  net_send : direccion -> list byte -> outcome Z;
  net_recv : direccion -> outcome (list byte)
}.

Record socket_st := {
  sk_open : bool;
  sk_timeout : option Z;
  sk_peer : option direccion
}.

(** The calls a probe makes, in the order it makes them. *)
Inductive call :=
  | CSocket (fd : option nat)
  | CSetTimeout (fd : nat) (t : Z)
  | CConnectEx (fd : nat) (a : direccion)
  | CConnect (fd : nat) (a : direccion)
  | CSend (fd : nat) (data : list byte)
  | CRecv (fd : nat) (bufsize : nat)
  | CClose (fd : nat).

(** The descriptor table (a socket's descriptor is its index) and the log. *)
Record world := {
  socks : list socket_st;
  log : list call
}.

Definition mundo_inicial : world := {| socks := []; log := [] |}.

(** Descriptors that are still open. *)
Definition open_fds (w : world) : list nat :=
  filter (fun fd => from_option sk_open false (socks w !! fd) = true)
         (seq 0 (length (socks w))).

(** State and exceptions. *)
Definition M (A : Type) : Type := world -> outcome A * world.

#[global] Instance M_ret : MRet M := fun A (a : A) w => (Ok a, w).

#[global] Instance M_bind : MBind M := fun A B (k : A -> M B) (m : M A) w =>
  match m w with
  | (Ok a, w') => k a w'
  | (Raise e, w') => (Raise e, w')
  end.

(** [try: m / except: h] *)
Definition try_except {A} (m : M A) (h : exn -> M A) : M A :=
  fun w =>
    match m w with
    | (Ok a, w') => (Ok a, w')
    | (Raise e, w') => h e w'
    end.

Definition EBADF : Z := 9.

Definition record (c : call) (w : world) : world :=
  {| socks := socks w; log := log w ++ [c] |}.

Definition update_sock (fd : nat) (f : socket_st -> socket_st) (w : world) : world :=
  {| socks := alter f fd (socks w); log := log w |}.

(** The open socket behind a descriptor. *)
Definition live (fd : nat) (w : world) : option socket_st :=
  match socks w !! fd with
  | Some s => if sk_open s then Some s else None
  | None => None
  end.

Section Sockets.

Variable net : red.

(** [socket.socket(socket.AF_INET, socket.SOCK_STREAM)] *)
Definition socket_socket : M nat := fun w =>
  let fd := length (socks w) in
  match net_socket net fd with
  | Some e => (Raise e, record (CSocket None) w)
  | None =>
      (Ok fd,
       record (CSocket (Some fd))
         {| socks := socks w ++ [{| sk_open := true; sk_timeout := None;
                                    sk_peer := None |}];
            log := log w |})
  end.

(** [s.settimeout(t)] *)
Definition settimeout (fd : nat) (t : Z) : M unit := fun w =>
  let w := record (CSetTimeout fd t) w in
  match live fd w with
  | None => (Raise (OSError EBADF), w)
  | Some _ =>
      (Ok tt,
       update_sock fd (fun s => {| sk_open := sk_open s; sk_timeout := Some t;
                                   sk_peer := sk_peer s |}) w)
  end.

Definition set_peer (a : direccion) (s : socket_st) : socket_st :=
  {| sk_open := sk_open s; sk_timeout := sk_timeout s; sk_peer := Some a |}.

(** [s.connect_ex(a)]: the [errno] of the connection attempt. *)
Definition connect_ex (fd : nat) (a : direccion) : M Z := fun w =>
  let w := record (CConnectEx fd a) w in
  match live fd w with
  | None => (Raise (OSError EBADF), w)
  | Some _ =>
      match net_connect_ex net a with
      | Ok code =>
          (Ok code, if Z.eqb code 0 then update_sock fd (set_peer a) w else w)
      | Raise e => (Raise e, w)
      end
  end.

(** [s.connect(a)] *)
Definition connect (fd : nat) (a : direccion) : M unit := fun w =>
  let w := record (CConnect fd a) w in
  match live fd w with
  | None => (Raise (OSError EBADF), w)
  | Some _ =>
      match net_connect net a with
      | None => (Ok tt, update_sock fd (set_peer a) w)
      | Some e => (Raise e, w)
      end
  end.

Definition ENOTCONN : Z := 107.

(** [s.send(data)]: the number of bytes sent. *)
Definition send (fd : nat) (data : list byte) : M Z := fun w =>
  let w := record (CSend fd data) w in
  match live fd w with
  | None => (Raise (OSError EBADF), w)
  | Some s =>
      match sk_peer s with
      | None => (Raise (OSError ENOTCONN), w)
      | Some a => (net_send net a data, w)
      end
  end.

(** [s.recv(bufsize)]: at most [bufsize] of the bytes the peer has sent. *)
Definition recv (fd : nat) (bufsize : nat) : M (list byte) := fun w =>
  let w := record (CRecv fd bufsize) w in
  match live fd w with
  | None => (Raise (OSError EBADF), w)
  | Some s =>
      match sk_peer s with
      | None => (Raise (OSError ENOTCONN), w)
      | Some a =>
          match net_recv net a with
          | Ok data => (Ok (take bufsize data), w)
          | Raise e => (Raise e, w)
          end
      end
  end.

(** [s.close()] *)
Definition close (fd : nat) : M unit := fun w =>
  (Ok tt,
   update_sock fd (fun s => {| sk_open := false; sk_timeout := sk_timeout s;
                               sk_peer := sk_peer s |})
     (record (CClose fd) w)).

End Sockets.

(** ** [escan_puerto] *)

(** The [dict] a probe returns for an open port. *)
Record resultado := {
  puerto : Z;
  estado : str;
  servicio : str;
  banner : str
}.

(** [b"HEAD / HTTP/1.0\r\n\r\n"] *)
Definition HEAD_REQUEST : list byte :=
  list_byte_of_string "HEAD / HTTP/1.0" ++ [x0d; x0a; x0d; x0a].

(** The inner [try] of [escan_puerto]: the banner of an open port. *)
Definition leer_banner (net : red) (ip : str) (puerto : Z) : M str :=
  try_except
    (banner_sock ← socket_socket net;
     settimeout banner_sock 2;;
     connect net banner_sock (ip, puerto);;
     send net banner_sock HEAD_REQUEST;;
     data ← recv net banner_sock 1024;
     let banner := take 100 (decode_utf8_ignore data) in
     close banner_sock;;
     mret banner)
    (fun _ => mret (py "No disponible")).

Definition escan_puerto (net : red) (ip : str) (puerto : Z) (timeout : Z)
  : M (option resultado) :=
  try_except
    (sock ← socket_socket net;
     settimeout sock timeout;;
     resultado ← connect_ex net sock (ip, puerto);
     close sock;;
     if Z.eqb resultado 0 then
       banner ← leer_banner net ip puerto;
       mret (Some {| puerto := puerto;
                    estado := py "abierto";
                    servicio := dict_get PUERTOS_COMUNES puerto (py "desconocido");
                    banner := banner |})
     else mret None)
    (fun _ => mret None).


(** The probe as the scanner's workers run it: [escan_puerto(ip, puerto)] with
    the default [timeout=1], on sockets of its own. *)
Definition sondeo (net : red) (ip : str) (p : Z) : outcome (option resultado) :=
  fst (escan_puerto net ip p 1 mundo_inicial).

(** ** Console output

    One constructor for each [print] of [geo_ip] and
    [escanear_puertos_comunes], carrying the values it formats. *)
#[warnings="-register-all"]
Inductive json :=
  | JNull
  | JBool (b : bool)
  | JNum (literal : string)
  | JStr (s : str)
  | JArr (items : list json)
  | JObj (members : list (str * json)).

Inductive linea :=
  | L_consultando_geo (ip : str)
  | L_geo_encontrada
  | L_geo_pais (v : json)
  | L_geo_ciudad (v : json)
  | L_geo_isp (v : json)
  | L_geo_error (mensaje : json)
  | L_geo_excepcion (e : exn)
  | L_escaneando (ip : str)
  | L_puerto_abierto (puerto : Z) (servicio : str)
  | L_puertos_encontrados (n : nat).

(** ** [geo_ip] *)









(** ** [escanear_puertos_comunes] on a [ThreadPoolExecutor]

    The executor owns a FIFO work queue and at most [max_workers] worker
    threads.  [executor.submit] creates a future, queues the work item and
    may start a worker; an idle worker takes the oldest item, runs it and
    stores its outcome in the future; [future.result()] blocks until the
    outcome is there; leaving the [with] block waits for the workers. *)

Definition max_workers : nat := 20.

(** An entry of [futures]: the future's outcome, once set, and its port. *)
Record future_entry := {
  f_estado : option (outcome (option resultado));
  f_puerto : Z
}.

(** A work item: the index of its future in [futures] and the port. *)
Definition work_item : Type := nat * Z.

(** Where the main thread is in [escanear_puertos_comunes]. *)
Inductive main_thread :=
  | Submitting (puertos_a_escanear : list Z)
  | Collecting (k : nat) (puertos_abiertos : list resultado)
  | Exiting (r : outcome (list resultado))
  | Returned (r : outcome (list resultado)).

Record pool := {
  principal : main_thread;
  futures : list future_entry;
  work_queue : list work_item;
  threads : list (option work_item);
  consola : list linea
}.

(** The state after the first [print], [puertos_a_escanear = list(...)],
    [puertos_abiertos = []] and the creation of the executor. *)
Definition inicial (ip : str) : pool :=
  {| principal := Submitting (dict_keys PUERTOS_COMUNES);
     futures := [];
     work_queue := [];
     threads := [];
     consola := [L_escaneando ip] |}.

(** What the scheduler lets happen next. *)
Inductive decision :=
  | DSubmit (spawn : bool)
  | DTake (worker : nat)
  | DFinish (worker : nat)
  | DMain.

Definition idle (t : option work_item) : bool :=
  match t with
  | None => true
  | Some _ => false
  end.

(** Probes that are running. *)
Definition in_flight (s : pool) : nat :=
  length (filter (fun t => idle t = false) (threads s)).

Definition set_estado (o : outcome (option resultado)) (f : future_entry)
  : future_entry :=
  {| f_estado := Some o; f_puerto := f_puerto f |}.

Section Scanner.

Variable net : red.
Variable ip : str.
Variable verbose : bool.

(** One more [executor.submit(escan_puerto, ip, puerto)] of the dict
    comprehension. *)
Definition submit (spawn : bool) (s : pool) : option pool :=
  match principal s with
  | Submitting (p :: ps) =>
      let item := (length (futures s), p) in
      let s' threads' :=
        {| principal := Submitting ps;
           futures := futures s ++ [{| f_estado := None; f_puerto := p |}];
           work_queue := work_queue s ++ [item];
           threads := threads';
           consola := consola s |} in
      if spawn then
        if decide (length (threads s) < max_workers)%nat
        then Some (s' (threads s ++ [None]))
        else None
      else
        match threads s with
        | [] => None
        | _ => Some (s' (threads s))
        end
  | _ => None
  end.

(** An idle worker takes the oldest work item. *)
Definition take_item (i : nat) (s : pool) : option pool :=
  match threads s !! i, work_queue s with
  | Some None, item :: q =>
      Some {| principal := principal s;
              futures := futures s;
              work_queue := q;
              threads := <[i := Some item]> (threads s);
              consola := consola s |}
  | _, _ => None
  end.

(** A worker finishes its probe and sets the future. *)
Definition finish (i : nat) (s : pool) : option pool :=
  match threads s !! i with
  | Some (Some (fid, p)) =>
      Some {| principal := principal s;
              futures := alter (set_estado (sondeo net ip p)) fid (futures s);
              work_queue := work_queue s;
              threads := <[i := None]> (threads s);
              consola := consola s |}
  | _ => None
  end.

Definition with_main (m : main_thread) (out : list linea) (s : pool) : pool :=
  {| principal := m;
     futures := futures s;
     work_queue := work_queue s;
     threads := threads s;
     consola := consola s ++ out |}.

(** The main thread after the submissions: the [for future in futures]
    loop, the end of the [with] block, the last [print] and [return]. *)
Definition main_step (s : pool) : option pool :=
  match principal s with
  | Submitting [] => Some (with_main (Collecting 0 []) [] s)
  | Submitting (_ :: _) => None
  | Collecting k puertos_abiertos =>
      match futures s !! k with
      | None => Some (with_main (Exiting (Ok puertos_abiertos)) [] s)
      | Some future =>
          match f_estado future with
          | None => None
          | Some (Raise e) => Some (with_main (Exiting (Raise e)) [] s)
          | Some (Ok resultado) =>
              match resultado with
              | Some r =>
                  Some (with_main (Collecting (S k) (puertos_abiertos ++ [r]))
                          (if verbose
                           then [L_puerto_abierto (puerto r) (servicio r)]
                           else [])
                          s)
              | None => Some (with_main (Collecting (S k) puertos_abiertos) [] s)
              end
          end
      end
  | Exiting r =>
      match work_queue s with
      | [] =>
          if forallb idle (threads s)
          then Some (with_main (Returned r)
                       match r with
                       | Ok puertos_abiertos =>
                           [L_puertos_encontrados (length puertos_abiertos)]
                       | Raise _ => []
                       end s)
          else None
      | _ :: _ => None
      end
  | Returned _ => None
  end.

Definition paso (d : decision) (s : pool) : option pool :=
  match d with
  | DSubmit spawn => submit spawn s
  | DTake i => take_item i s
  | DFinish i => finish i s
  | DMain => main_step s
  end.

(** A run under a schedule; [None] when the schedule asks for a step that
    cannot happen. *)
Fixpoint ejecutar (ds : list decision) (s : pool) : option pool :=
  match ds with
  | [] => Some s
  | d :: ds' =>
      match paso d s with
      | Some s' => ejecutar ds' s'
      | None => None
      end
  end.

(** The call [escanear_puertos_comunes(ip, verbose)] under a schedule that
    runs it to its end: what it returns or raises, and what it prints. *)
Definition escanear_puertos_comunes (ds : list decision)
  : option (outcome (list resultado) * list linea) :=
  match ejecutar ds (inicial ip) with
  | Some s =>
      match principal s with
      | Returned r => Some (r, consola s)
      | _ => None
      end
  | None => None
  end.

(** The open ports among [ps], in the order of [ps]. *)
Fixpoint abiertos (ps : list Z) : list resultado :=
  match ps with
  | [] => []
  | p :: ps' =>
      match sondeo net ip p with
      | Ok (Some r) => r :: abiertos ps'
      | _ => abiertos ps'
      end
  end.

End Scanner.

(** Schedules: every probe runs alone, in submission order ... *)
Definition plan_secuencial : list decision :=
  replicate 20 (DSubmit true) ++ replicate 3 (DSubmit false) ++ [DMain]
  ++ mjoin (replicate 23 [DTake 0; DFinish 0; DMain])
  ++ [DMain; DMain]%nat.

(** ... or twenty at a time, finishing in the reverse order. *)
Definition plan_inverso : list decision :=
  replicate 20 (DSubmit true) ++ replicate 3 (DSubmit false)
  ++ map DTake (seq 0 20) ++ map DFinish (reverse (seq 0 20))
  ++ map DTake (seq 0 3) ++ map DFinish (reverse (seq 0 3))
  ++ replicate 26 DMain.

(** A target in the manner of the specification's scenario A: ports 80 and
    443 accept connections; 80 answers the request, 443 lets the read time
    out. *)
Definition red_ejemplo : red :=
  {| net_socket := fun _ => None;
     net_connect_ex := fun a =>
       if bool_decide (snd a = 80 \/ snd a = 443) then Ok 0 else Ok 111;
     net_connect := fun _ => None;
     net_send := fun _ data => Ok (Z.of_nat (length data));
     net_recv := fun a =>
       if bool_decide (snd a = 80)
       then Ok [x48; x54; x54; x50; x2f; x31; x2e; x31; x20; x32; x30; x30;
                x20; x4f; x4b]
       else Raise socket_timeout |}.

Definition ip_ejemplo : str := py "192.0.2.7".

Arguments HEAD_REQUEST : simpl never.
Arguments PUERTOS_COMUNES : simpl never.
Arguments decode_utf8_ignore : simpl never.

(** ** Conditions on the network *)

(** The first phase of the probe of [(ip, p)] from the world [w] succeeds: the
    socket is created and [connect_ex] answers 0. *)
Definition conecta (net : red) (ip : str) (p : Z) (w : world) : bool :=
  match net_socket net (length (socks w)) with
  | Some _ => false
  | None =>
      match net_connect_ex net (ip, p) with
      | Ok code => Z.eqb code 0
      | Raise _ => false
      end
  end.

(** What the peer answers to the banner request, when every call of the
    banner phase succeeds; [k] is the descriptor of the second socket. *)
Definition lectura_banner (net : red) (ip : str) (p : Z) (k : nat)
  : option (list byte) :=
  match net_socket net k with
  | Some _ => None
  | None =>
      match net_connect net (ip, p) with
      | Some _ => None
      | None =>
          match net_send net (ip, p) HEAD_REQUEST with
          | Raise _ => None
          | Ok _ =>
              match net_recv net (ip, p) with
              | Raise _ => None
              | Ok data => Some data
              end
          end
      end
  end.


(** ** Invariant and measure of the executor *)

Definition pendientes (m : main_thread) : list Z :=
  match m with
  | Submitting ps => ps
  | _ => []
  end.

Definition hecho (f : future_entry) : Prop := is_Some (f_estado f).

Definition inv_main (net : red) (ip : str) (s : pool) : Prop :=
  match principal s with
  | Submitting _ => True
  | Collecting k acc =>
      acc = abiertos net ip (take k (map f_puerto (futures s)))
      /\ (forall i f, (i < k)%nat -> futures s !! i = Some f -> hecho f)
      /\ (k <= length (futures s))%nat
  | Exiting r =>
      r = Ok (abiertos net ip (dict_keys PUERTOS_COMUNES))
      /\ Forall hecho (futures s)
  | Returned r =>
      r = Ok (abiertos net ip (dict_keys PUERTOS_COMUNES))
      /\ Forall hecho (futures s)
      /\ work_queue s = []
      /\ forallb idle (threads s) = true
  end.

Record inv (net : red) (ip : str) (s : pool) : Prop := {
  inv_puertos :
    map f_puerto (futures s) ++ pendientes (principal s)
    = dict_keys PUERTOS_COMUNES;
  inv_estados : forall i f o,
    futures s !! i = Some f -> f_estado f = Some o ->
    o = sondeo net ip (f_puerto f);
  inv_items : forall i p,
    (i, p) ∈ work_queue s \/ Some (i, p) ∈ threads s ->
    exists f, futures s !! i = Some f /\ f_puerto f = p;
  inv_threads : (length (threads s) <= max_workers)%nat;
  inv_principal : inv_main net ip s;
  inv_pend : forall i f,
    futures s !! i = Some f -> f_estado f = None ->
    exists p, (i, p) ∈ work_queue s \/ Some (i, p) ∈ threads s;
  inv_workers : futures s <> [] -> threads s <> []
}.

Definition medida_main (s : pool) : nat :=
  match principal s with
  | Submitting ps => 4 * length ps + length (futures s) + 3
  | Collecting k _ => (length (futures s) - k) + 2
  | Exiting _ => 1
  | Returned _ => 0
  end.

Definition medida (s : pool) : nat :=
  medida_main s + 2 * length (work_queue s) + in_flight s.


(** The state of the example scan when the first twenty probes have been
    taken by the workers and the last three wait in the queue. *)
Definition estado_veinte : pool := Eval vm_compute in
    from_option id (inicial ip_ejemplo)
      (ejecutar red_ejemplo ip_ejemplo true (take 43 plan_inverso)
         (inicial ip_ejemplo)).

(** * Properties *)

(** ** The port table *)



Lemma claves_NoDup : NoDup (dict_keys PUERTOS_COMUNES).
Proof. apply (bool_decide_unpack _). vm_compute. exact I. Qed.

(** ** The socket layer *)

Lemma lookup_snoc_new {A} (l : list A) (x : A) :
  (l ++ [x]) !! length l = Some x.
Proof. apply list_lookup_middle. reflexivity. Qed.

Lemma alter_snoc {A} (f : A -> A) (l : list A) (x : A) :
  alter f (length l) (l ++ [x]) = l ++ [f x].
Proof.
  replace (length l) with (length l + 0)%nat by lia.
  rewrite alter_app_r. reflexivity.
Qed.

Lemma length_snoc {A} (l : list A) (a : A) : length (l ++ [a]) = S (length l).
Proof. rewrite length_app. cbn. lia. Qed.

Lemma lookup_snoc_new2 {A} (l : list A) (a x : A) :
  ((l ++ [a]) ++ [x]) !! S (length l) = Some x.
Proof. rewrite <- (length_snoc l a). apply lookup_snoc_new. Qed.

Lemma alter_snoc2 {A} (f : A -> A) (l : list A) (a x : A) :
  alter f (S (length l)) ((l ++ [a]) ++ [x]) = (l ++ [a]) ++ [f x].
Proof. rewrite <- (length_snoc l a). apply alter_snoc. Qed.

Ltac probe_unfold :=
  unfold escan_puerto, leer_banner, try_except, mbind, M_bind, mret, M_ret,
    socket_socket, settimeout, connect_ex, connect, send, recv, close,
    live, record, update_sock, set_peer.

Ltac sock_simpl :=
  repeat (cbn; rewrite ?length_snoc, ?lookup_snoc_new, ?alter_snoc,
                       ?lookup_snoc_new2, ?alter_snoc2).

(** Follow [escan_puerto] from a world with sockets [l] through every answer
    the network can give. *)
Ltac probe_cases net ip p l :=
  probe_unfold; cbn;
  destruct (net_socket net (length l)) eqn:Hs1; sock_simpl;
  [| destruct (net_connect_ex net (ip, p)) as [code|] eqn:Hcx; sock_simpl;
     [ destruct (Z.eqb code 0) eqn:Hcode; sock_simpl;
       [ destruct (net_socket net (S (length l))) eqn:Hs2; sock_simpl;
         [| destruct (net_connect net (ip, p)) eqn:Hc2; sock_simpl;
            [| destruct (net_send net (ip, p) HEAD_REQUEST) eqn:Hsend;
               sock_simpl;
               [ destruct (net_recv net (ip, p)) eqn:Hrecv; sock_simpl | ] ] ]
       | ]
     | ] ].

(** The banner of an open port, from what the network answers. *)
Lemma escan_puerto_abierto net ip p t w :
  conecta net ip p w = true ->
  fst (escan_puerto net ip p t w) =
  Ok (Some {| puerto := p;
              estado := py "abierto";
              servicio := dict_get PUERTOS_COMUNES p (py "desconocido");
              banner :=
                match lectura_banner net ip p (S (length (socks w))) with
                | Some data => take 100 (decode_utf8_ignore (take 1024 data))
                | None => py "No disponible"
                end |}).
Proof.
  unfold conecta, lectura_banner. destruct w as [l lg].
  probe_cases net ip p l; intros Hc; try discriminate; reflexivity.
Qed.

Lemma escan_puerto_cerrado net ip p t w :
  conecta net ip p w = false ->
  fst (escan_puerto net ip p t w) = Ok None.
Proof.
  unfold conecta. destruct w as [l lg].
  probe_cases net ip p l; intros Hc; try discriminate; reflexivity.
Qed.

(** A probe never raises, and reports the port it was asked about. *)
Lemma sondeo_no_lanza net ip p e : sondeo net ip p <> Raise e.
Proof.
  unfold sondeo. destruct (conecta net ip p mundo_inicial) eqn:Hc.
  - rewrite escan_puerto_abierto by assumption. discriminate.
  - rewrite escan_puerto_cerrado by assumption. discriminate.
Qed.

Lemma sondeo_puerto net ip p r : sondeo net ip p = Ok (Some r) -> puerto r = p.
Proof.
  unfold sondeo. destruct (conecta net ip p mundo_inicial) eqn:Hc.
  - rewrite escan_puerto_abierto by assumption. intros [= <-]. reflexivity.
  - rewrite escan_puerto_cerrado by assumption. discriminate.
Qed.

(** ** Lists updated in place *)

Lemma elem_of_insert_inv {A} (l : list A) (i : nat) (x y : A) :
  x ∈ <[i:=y]> l -> x = y \/ x ∈ l.
Proof.
  intros Hin. apply list_elem_of_lookup in Hin as [j Hj].
  destruct (decide (i = j)) as [->|Hne].
  - destruct (decide (j < length l)%nat) as [Hlt|Hge].
    + rewrite list_lookup_insert_eq in Hj by assumption. left. congruence.
    + rewrite list_insert_ge in Hj by lia. right.
      eapply list_elem_of_lookup_2, Hj.
  - rewrite list_lookup_insert_ne in Hj by assumption. right.
    eapply list_elem_of_lookup_2, Hj.
Qed.

Lemma elem_of_insert_keep {A} (l : list A) (i : nat) (x y z : A) :
  x ∈ l -> l !! i = Some z -> x <> z -> x ∈ <[i:=y]> l.
Proof.
  intros Hin Hi Hne. apply list_elem_of_lookup in Hin as [j Hj].
  apply list_elem_of_lookup. exists j.
  rewrite list_lookup_insert_ne; [assumption|]. congruence.
Qed.

Lemma fmap_puerto_alter o i (l : list future_entry) :
  map f_puerto (alter (set_estado o) i l) = map f_puerto l.
Proof.
  revert i. induction l as [|f l IH]; intros [|i]; cbn; try reflexivity.
  f_equal. apply IH.
Qed.

Lemma lookup_alter_estado o i j (l : list future_entry) f' :
  alter (set_estado o) i l !! j = Some f' ->
  exists f, l !! j = Some f
            /\ ((i <> j /\ f' = f) \/ (i = j /\ f' = set_estado o f)).
Proof.
  destruct (decide (i = j)) as [->|Hne].
  - rewrite list_lookup_alter_eq. destruct (l !! j) as [f|]; [|discriminate].
    cbn. intros [= <-]. exists f. auto.
  - rewrite list_lookup_alter_ne by assumption. intros Hj. exists f'. auto.
Qed.

Lemma lookup_alter_estado_2 o i j (l : list future_entry) f :
  l !! j = Some f ->
  exists f', alter (set_estado o) i l !! j = Some f'
             /\ f_puerto f' = f_puerto f.
Proof.
  intros Hj. destruct (decide (i = j)) as [->|Hne].
  - rewrite list_lookup_alter_eq, Hj. cbn. eauto.
  - rewrite list_lookup_alter_ne by assumption. eauto.
Qed.

Lemma insert_not_nil {A} (l : list A) i x : l <> [] -> <[i:=x]> l <> [].
Proof.
  intros Hl Hn. apply Hl. apply length_zero_iff_nil.
  rewrite <- (length_insert l i x), Hn. reflexivity.
Qed.

Lemma forallb_idle_lookup (l : list (option work_item)) i it :
  forallb idle l = true -> l !! i = Some (Some it) -> False.
Proof.
  revert i. induction l as [|t l IH]; intros [|i]; cbn; try discriminate.
  - intros [Ht _]%andb_prop [= ->]. discriminate.
  - intros [_ Hl]%andb_prop Hi. eapply IH; eauto.
Qed.

(** Counting the busy workers. *)
Lemma in_flight_le s : (in_flight s <= length (threads s))%nat.
Proof. unfold in_flight. apply length_filter. Qed.

Lemma busy_count_insert (l : list (option work_item)) i x y :
  l !! i = Some x ->
  (length (filter (fun t => idle t = false) (<[i:=y]> l))
   + (if idle x then 0 else 1)
   = length (filter (fun t => idle t = false) l)
     + (if idle y then 0 else 1))%nat.
Proof.
  revert i. induction l as [|t l IH]; intros [|i] Hi; try discriminate.
  - cbn in Hi. injection Hi as ->. cbn [insert list_insert].
    rewrite !filter_cons.
    destruct (idle x), (idle y); repeat case_decide; try congruence; cbn; lia.
  - cbn in Hi. specialize (IH i Hi).
    change (<[S i:=y]> (t :: l)) with (t :: <[i:=y]> l).
    rewrite !filter_cons.
    case_decide; cbn; lia.
Qed.

Lemma forallb_idle_in_flight s :
  forallb idle (threads s) = true -> in_flight s = 0%nat.
Proof.
  unfold in_flight. induction (threads s) as [|t l IH]; [reflexivity|].
  cbn [forallb]. intros [Ht Hl]%andb_prop. rewrite filter_cons.
  case_decide; [congruence|]. apply IH, Hl.
Qed.

(** ** The open ports *)

Lemma abiertos_app net ip ps qs :
  abiertos net ip (ps ++ qs) = abiertos net ip ps ++ abiertos net ip qs.
Proof.
  induction ps as [|p ps IH]; [reflexivity|]. cbn.
  destruct (sondeo net ip p) as [[r|]|e]; cbn; rewrite IH; reflexivity.
Qed.

Lemma elem_of_abiertos net ip ps r :
  r ∈ abiertos net ip ps <-> exists p, p ∈ ps /\ sondeo net ip p = Ok (Some r).
Proof.
  induction ps as [|p ps IH]; cbn.
  - split; [intros H; inversion H|intros (p & H & _); inversion H].
  - destruct (sondeo net ip p) as [[r'|]|e] eqn:Hp.
    + rewrite elem_of_cons, IH. split.
      * intros [->|(q & Hq & Hr)]; [exists p|exists q];
          rewrite elem_of_cons; auto.
      * intros (q & [->|Hq]%elem_of_cons & Hr); [left; congruence|right; eauto].
    + rewrite IH. split.
      * intros (q & Hq & Hr). exists q. rewrite elem_of_cons. auto.
      * intros (q & [->|Hq]%elem_of_cons & Hr); [congruence|eauto].
    + rewrite IH. split.
      * intros (q & Hq & Hr). exists q. rewrite elem_of_cons. auto.
      * intros (q & [->|Hq]%elem_of_cons & Hr); [congruence|eauto].
Qed.

Lemma puertos_abiertos_sublist net ip ps :
  map puerto (abiertos net ip ps) `sublist_of` ps.
Proof.
  induction ps as [|p ps IH]; cbn; [constructor|].
  destruct (sondeo net ip p) as [[r|]|e] eqn:Hp.
  - cbn. rewrite (sondeo_puerto _ _ _ _ Hp). apply sublist_skip, IH.
  - apply sublist_cons, IH.
  - apply sublist_cons, IH.
Qed.

(** ** The invariant of the executor *)

Section Invariante.

Variable net : red.
Variable ip : str.

Lemma inv_inicial : inv net ip (inicial ip).
Proof.
  split; cbn.
  - reflexivity.
  - intros i f o Hi. rewrite lookup_nil in Hi. discriminate.
  - intros i p [H|H]; inversion H.
  - unfold max_workers. lia.
  - exact I.
  - intros i f Hi. rewrite lookup_nil in Hi. discriminate.
  - congruence.
Qed.

Lemma inv_submit_gen s p ps ts :
  principal s = Submitting (p :: ps) ->
  inv net ip s ->
  (length ts <= max_workers)%nat ->
  ts <> [] ->
  (forall it, Some it ∈ ts <-> Some it ∈ threads s) ->
  inv net ip
    {| principal := Submitting ps;
       futures := futures s ++ [{| f_estado := None; f_puerto := p |}];
       work_queue := work_queue s ++ [(length (futures s), p)];
       threads := ts;
       consola := consola s |}.
Proof.
  intros Hm [Hp He Hi Ht _ Hd Hw] Hlen Hne Hts. rewrite Hm in Hp. cbn in Hp.
  split; cbn.
  - rewrite map_app, <- app_assoc. exact Hp.
  - intros i f o [[_ Hf]|[_ <-]]%lookup_snoc_Some; [eauto|discriminate].
  - intros i q [[Hq|Hq%list_elem_of_singleton]%elem_of_app|Hq%Hts].
    + destruct (Hi i q) as (f & Hf & Hfp); [auto|].
      exists f. split; [|assumption].
      rewrite lookup_app_l; eauto using lookup_lt_Some.
    + injection Hq as -> ->. eexists. split; [apply lookup_snoc_new|].
      reflexivity.
    + destruct (Hi i q) as (f & Hf & Hfp); [auto|].
      exists f. split; [|assumption].
      rewrite lookup_app_l; eauto using lookup_lt_Some.
  - exact Hlen.
  - exact I.
  - intros i f [[_ Hf]|[-> _]]%lookup_snoc_Some Hnone.
    + destruct (Hd i f Hf Hnone) as [q [Hq|Hq]]; exists q.
      * left. apply elem_of_app. auto.
      * right. apply Hts, Hq.
    + exists p. left. apply elem_of_app. right.
      apply list_elem_of_singleton. reflexivity.
  - intros _. exact Hne.
Qed.

Lemma inv_submit spawn s s' :
  submit spawn s = Some s' -> inv net ip s -> inv net ip s'.
Proof.
  unfold submit. intros Hs Hinv.
  destruct (principal s) as [[|p ps]| | |] eqn:Hm; try discriminate.
  destruct spawn.
  - case_decide as Hlt; [|discriminate]. injection Hs as <-.
    apply inv_submit_gen; try assumption.
    + rewrite length_app. cbn. lia.
    + intros Hnil. apply (f_equal length) in Hnil.
      rewrite length_app in Hnil. cbn in Hnil. lia.
    + intros it. rewrite elem_of_app, list_elem_of_singleton.
      split; [intros [H|H]; [assumption|discriminate]|auto].
  - destruct (threads s) as [|t ts] eqn:Hts; [discriminate|].
    injection Hs as <-. rewrite <- Hts.
    apply inv_submit_gen; try assumption.
    + apply Hinv.
    + rewrite Hts. discriminate.
    + reflexivity.
Qed.

Lemma inv_take i s s' :
  take_item i s = Some s' -> inv net ip s -> inv net ip s'.
Proof.
  unfold take_item. intros Hs [Hp He Hi Ht Hmn Hd Hw].
  destruct (threads s !! i) as [[|]|] eqn:Hti; try discriminate.
  destruct (work_queue s) as [|item q] eqn:Hq; [discriminate|].
  injection Hs as <-. split; cbn.
  - exact Hp.
  - exact He.
  - intros j p [Hj|Hj].
    + apply (Hi j p). left. apply elem_of_cons. auto.
    + apply elem_of_insert_inv in Hj as [[= <-]|Hj].
      * apply (Hi j p). left. apply elem_of_cons. auto.
      * apply (Hi j p). auto.
  - rewrite length_insert. exact Ht.
  - unfold inv_main in *. cbn.
    destruct (principal s); try assumption.
    destruct Hmn as (_ & _ & Hnil & _). congruence.
  - intros j f Hj Hnone. destruct (Hd j f Hj Hnone) as [p [Hin|Hin]].
    + apply elem_of_cons in Hin as [<-|Hin].
      * exists p. right. apply list_elem_of_insert.
        eapply lookup_lt_Some, Hti.
      * exists p. auto.
    + exists p. right. eapply elem_of_insert_keep; eauto; discriminate.
  - intros Hf. apply insert_not_nil, Hw, Hf.
Qed.

Lemma inv_finish i s s' :
  finish net ip i s = Some s' -> inv net ip s -> inv net ip s'.
Proof.
  unfold finish. intros Hs [Hp He Hi Ht Hmn Hd Hw].
  destruct (threads s !! i) as [[[fid p]|]|] eqn:Hti; try discriminate.
  injection Hs as <-.
  assert (Hrun : Some (fid, p) ∈ threads s)
    by (eapply list_elem_of_lookup_2, Hti).
  destruct (Hi fid p (or_intror Hrun)) as (f0 & Hf0 & Hf0p).
  split; cbn.
  - rewrite fmap_puerto_alter. exact Hp.
  - intros j f' o (f & Hf & [[_ ->]|[<- ->]])%lookup_alter_estado.
    + eauto.
    + cbn. intros [= <-]. congruence.
  - intros j q Hq.
    assert (Hold : (j, q) ∈ work_queue s \/ Some (j, q) ∈ threads s).
    { destruct Hq as [Hq|Hq]; [auto|].
      apply elem_of_insert_inv in Hq as [Hq|Hq]; [discriminate|auto]. }
    destruct (Hi j q Hold) as (f & Hf & Hfp).
    destruct (lookup_alter_estado_2 (sondeo net ip p) fid j _ f Hf)
      as (f' & Hf' & Hfp').
    exists f'. split; [assumption|congruence].
  - rewrite length_insert. exact Ht.
  - unfold inv_main in *. cbn.
    destruct (principal s) as [ps|k acc|r|r].
    + exact I.
    + destruct Hmn as (Hacc & Hdone & Hk).
      rewrite fmap_puerto_alter, length_alter. repeat split; try assumption.
      intros j f' Hj (f & Hf & [[_ ->]|[<- ->]])%lookup_alter_estado.
      * eauto.
      * unfold hecho. cbn. eauto.
    + destruct Hmn as (Hr & Hdone). split; [assumption|].
      apply Forall_lookup. intros j f' (f & Hf & [[_ ->]|[<- ->]])%lookup_alter_estado.
      * eapply Forall_lookup_1; eauto.
      * unfold hecho. cbn. eauto.
    + destruct Hmn as (_ & _ & _ & Hidle).
      destruct (forallb_idle_lookup _ _ _ Hidle Hti).
  - intros j f' (f & Hf & [[Hne ->]|[<- ->]])%lookup_alter_estado Hnone;
      [|discriminate].
    destruct (Hd j f Hf Hnone) as [q [Hin|Hin]]; exists q; [auto|].
    right. eapply elem_of_insert_keep; eauto; congruence.
  - intros Hf. apply insert_not_nil, Hw. intros Hnil. apply Hf.
    rewrite Hnil. reflexivity.
Qed.

Lemma inv_with_main m out s :
  inv net ip s ->
  pendientes m = pendientes (principal s) ->
  inv_main net ip (with_main m out s) ->
  inv net ip (with_main m out s).
Proof.
  intros [Hp He Hi Ht _ Hd Hw] Hpend Hmn. split; cbn; try assumption.
  rewrite Hpend. exact Hp.
Qed.

Lemma abiertos_uno p :
  abiertos net ip [p] =
  match sondeo net ip p with
  | Ok (Some r) => [r]
  | _ => []
  end.
Proof. cbn. destruct (sondeo net ip p) as [[r|]|e]; reflexivity. Qed.

Lemma inv_main_step verbose s s' :
  main_step verbose s = Some s' -> inv net ip s -> inv net ip s'.
Proof.
  unfold main_step. intros Hs Hinv.
  pose proof (inv_puertos _ _ _ Hinv) as Hp.
  pose proof (inv_estados _ _ _ Hinv) as He.
  pose proof (inv_principal _ _ _ Hinv) as Hmn. unfold inv_main in Hmn.
  destruct (principal s) as [[|p ps]|k acc|r|r] eqn:Hm; try discriminate.
  - injection Hs as <-. apply inv_with_main; [assumption|by rewrite Hm|].
    unfold inv_main. cbn. repeat split; [intros; lia|lia].
  - destruct Hmn as (Hacc & Hdone & Hk). cbn in Hp. rewrite app_nil_r in Hp.
    destruct (futures s !! k) as [f|] eqn:Hfk.
    + assert (Htake : take (S k) (map f_puerto (futures s))
                      = take k (map f_puerto (futures s)) ++ [f_puerto f]).
      { apply take_S_r. rewrite list_lookup_fmap, Hfk. reflexivity. }
      assert (Hdone' : forall i f', (i < S k)%nat ->
                futures s !! i = Some f' -> is_Some (f_estado f) -> hecho f').
      { intros i f' Hlt Hi Hf. destruct (decide (i = k)) as [->|Hne].
        - rewrite Hfk in Hi. injection Hi as <-. exact Hf.
        - apply (Hdone i); [lia|assumption]. }
      apply lookup_lt_Some in Hfk as Hlt.
      destruct (f_estado f) as [[[r|]|e]|] eqn:Hf; try discriminate.
      * injection Hs as <-. apply inv_with_main; [assumption|by rewrite Hm|].
        unfold inv_main. cbn. repeat split; [|eauto|lia].
        rewrite Htake, abiertos_app, abiertos_uno, <- (He k f _ Hfk Hf).
        congruence.
      * injection Hs as <-. apply inv_with_main; [assumption|by rewrite Hm|].
        unfold inv_main. cbn. repeat split; [|eauto|lia].
        rewrite Htake, abiertos_app, abiertos_uno, <- (He k f _ Hfk Hf).
        rewrite app_nil_r. assumption.
      * destruct (sondeo_no_lanza net ip (f_puerto f) e).
        symmetry. eapply He; eauto.
    + injection Hs as <-. apply inv_with_main; [assumption|by rewrite Hm|].
      unfold inv_main. cbn. apply lookup_ge_None in Hfk. split.
      * rewrite Hacc, take_ge, Hp; [reflexivity|].
        rewrite length_map. exact Hfk.
      * apply Forall_lookup. intros i f Hi. apply (Hdone i); [|assumption].
        apply lookup_lt_Some in Hi. lia.
  - destruct (work_queue s) as [|item q] eqn:Hq; [|discriminate].
    destruct (forallb idle (threads s)) eqn:Hidle; [|discriminate].
    injection Hs as <-. apply inv_with_main; [assumption|by rewrite Hm|].
    unfold inv_main. cbn. destruct Hmn. auto.
Qed.

Lemma inv_paso verbose d s s' :
  paso net ip verbose d s = Some s' -> inv net ip s -> inv net ip s'.
Proof.
  destruct d; cbn;
    eauto using inv_submit, inv_take, inv_finish, inv_main_step.
Qed.

Lemma inv_ejecutar verbose ds s s' :
  ejecutar net ip verbose ds s = Some s' -> inv net ip s -> inv net ip s'.
Proof.
  revert s. induction ds as [|d ds IH]; cbn; intros s.
  - intros [= <-]. auto.
  - destruct (paso net ip verbose d s) as [s1|] eqn:Hd; [|discriminate].
    eauto using inv_paso.
Qed.

(** Every state of every run satisfies the invariant. *)
Lemma inv_alcanzable verbose ds s :
  ejecutar net ip verbose ds (inicial ip) = Some s -> inv net ip s.
Proof. intros H. eapply inv_ejecutar; eauto using inv_inicial. Qed.

End Invariante.

(** ** Progress and termination of the executor *)

Section Terminacion.

Variable net : red.
Variable ip : str.
Variable verbose : bool.

Lemma medida_paso d s s' :
  paso net ip verbose d s = Some s' -> (medida s' < medida s)%nat.
Proof.
  destruct d as [spawn|i|i|]; cbn.
  - unfold submit.
    destruct (principal s) as [[|p ps]| | |] eqn:Hm; try discriminate.
    assert (Hgoal : forall ts,
      length (filter (fun t => idle t = false) ts) = in_flight s ->
      (medida {| principal := Submitting ps;
                 futures := futures s ++ [{| f_estado := None; f_puerto := p |}];
                 work_queue := work_queue s ++ [(length (futures s), p)];
                 threads := ts;
                 consola := consola s |} < medida s)%nat).
    { intros ts Hts. unfold medida, medida_main, in_flight at 1. cbn.
      rewrite Hm, Hts, !length_app. cbn. lia. }
    destruct spawn.
    + case_decide; [|discriminate]. intros [= <-]. apply Hgoal.
      rewrite filter_app, length_app. unfold in_flight.
      rewrite filter_cons, filter_nil.
      case_decide; [discriminate|]. cbn. lia.
    + destruct (threads s) eqn:Hts; [discriminate|]. intros [= <-].
      apply Hgoal. unfold in_flight. rewrite Hts. reflexivity.
  - unfold take_item.
    destruct (threads s !! i) as [[|]|] eqn:Hti; try discriminate.
    destruct (work_queue s) as [|item q] eqn:Hq; [discriminate|].
    intros [= <-]. unfold medida, medida_main, in_flight. cbn.
    pose proof (busy_count_insert _ _ _ (Some item) Hti) as Hc. cbn in Hc.
    rewrite Hq. cbn. destruct (principal s); lia.
  - unfold finish.
    destruct (threads s !! i) as [[[fid p]|]|] eqn:Hti; try discriminate.
    intros [= <-]. unfold medida, medida_main, in_flight. cbn.
    pose proof (busy_count_insert _ _ _ None Hti) as Hc. cbn in Hc.
    rewrite length_alter. destruct (principal s); lia.
  - unfold main_step.
    destruct (principal s) as [[|p ps]|k acc|r|r] eqn:Hm; try discriminate.
    + intros [= <-]. unfold medida, medida_main, in_flight. cbn.
      rewrite Hm. lia.
    + destruct (futures s !! k) as [f|] eqn:Hfk.
      * apply lookup_lt_Some in Hfk.
        destruct (f_estado f) as [[[r|]|e]|]; try discriminate;
          intros [= <-]; unfold medida, medida_main, in_flight; cbn;
          rewrite Hm; lia.
      * intros [= <-]. unfold medida, medida_main, in_flight. cbn.
        rewrite Hm. lia.
    + destruct (work_queue s); [|discriminate].
      destruct (forallb idle (threads s)); [|discriminate].
      intros [= <-]. unfold medida, medida_main, in_flight. cbn.
      rewrite Hm. lia.
Qed.

(** With a worker and a queued item, some worker can move. *)
Lemma worker_paso s :
  threads s <> [] -> work_queue s <> [] ->
  exists d s', paso net ip verbose d s = Some s'.
Proof.
  intros Ht Hq. destruct (threads s) as [|[[fid p]|] ts] eqn:Hts; [done| |].
  - exists (DFinish 0). cbn. unfold finish. rewrite Hts. cbn. eauto.
  - destruct (work_queue s) as [|item q] eqn:Hwq; [done|].
    exists (DTake 0). cbn. unfold take_item. rewrite Hts, Hwq. cbn. eauto.
Qed.

Lemma busy_paso s i it :
  threads s !! i = Some (Some it) ->
  exists d s', paso net ip verbose d s = Some s'.
Proof.
  intros Hi. exists (DFinish i). unfold paso, finish.
  replace (threads s !! i) with (Some (Some it)). destruct it. eauto.
Qed.

Lemma forallb_idle_false (l : list (option work_item)) :
  forallb idle l = false -> exists i it, l !! i = Some (Some it).
Proof.
  induction l as [|[it|] l IH]; cbn; try discriminate.
  - intros _. exists 0%nat, it. reflexivity.
  - intros (i & it & Hi)%IH. exists (S i), it. exact Hi.
Qed.

(** No deadlock: a state of a run has returned or can take a step. *)
Lemma progreso s :
  inv net ip s ->
  (exists r, principal s = Returned r)
  \/ exists d s', paso net ip verbose d s = Some s'.
Proof.
  intros [Hp He Hi Ht Hmn Hd Hw].
  destruct (principal s) as [[|p ps]|k acc|r|r] eqn:Hm.
  - right. exists DMain. cbn. unfold main_step. rewrite Hm. eauto.
  - right. destruct (decide (length (threads s) < max_workers)%nat) as [Hlt|Hge].
    + exists (DSubmit true). cbn. unfold submit. rewrite Hm.
      rewrite decide_True by assumption. eauto.
    + exists (DSubmit false). cbn. unfold submit. rewrite Hm.
      destruct (threads s); [|eauto]. cbn in Hge. unfold max_workers in Hge. lia.
  - right. destruct (futures s !! k) as [f|] eqn:Hfk.
    + destruct (f_estado f) as [o|] eqn:Hf.
      * exists DMain. cbn. unfold main_step. rewrite Hm, Hfk, Hf.
        destruct o as [[r|]|e]; eauto.
      * destruct (Hd k f Hfk Hf) as [p [Hin|Hin]].
        -- apply worker_paso.
           ++ apply Hw. intros Hnil. rewrite Hnil in Hfk. discriminate.
           ++ intros Hnil. rewrite Hnil in Hin. inversion Hin.
        -- apply list_elem_of_lookup in Hin as [i Hin].
           eapply busy_paso, Hin.
    + exists DMain. cbn. unfold main_step. rewrite Hm, Hfk. eauto.
  - right. destruct (work_queue s) as [|[i p] q] eqn:Hq.
    + destruct (forallb idle (threads s)) eqn:Hidle.
      * exists DMain. cbn. unfold main_step. rewrite Hm, Hq, Hidle. eauto.
      * apply forallb_idle_false in Hidle as (i & it & Hbusy).
        eapply busy_paso, Hbusy.
    + apply worker_paso; [|rewrite Hq; discriminate].
      destruct (Hi i p) as (f & Hf & _).
      { left. apply elem_of_cons. auto. }
      apply Hw. intros Hnil. rewrite Hnil in Hf. discriminate.
  - left. eauto.
Qed.

(** From any state of a run the scan can be run to its [return]. *)
Lemma termina_desde n s :
  (medida s < n)%nat -> inv net ip s ->
  exists ds s' r,
    ejecutar net ip verbose ds s = Some s' /\ principal s' = Returned r.
Proof.
  revert s. induction n as [|n IH]; intros s Hlt Hinv; [lia|].
  destruct (progreso s Hinv) as [[r Hr]|(d & s1 & Hd)].
  - exists [], s, r. auto.
  - destruct (IH s1) as (ds & s' & r & Hrun & Hr).
    + apply medida_paso in Hd. lia.
    + eapply inv_paso; eauto.
    + exists (d :: ds), s', r. cbn. rewrite Hd. auto.
Qed.

(** Every run is at most [medida (inicial ip)] steps long. *)
Lemma ejecutar_acotado ds s s' :
  ejecutar net ip verbose ds s = Some s' ->
  (length ds + medida s' <= medida s)%nat.
Proof.
  revert s. induction ds as [|d ds IH]; cbn; intros s.
  - intros [= <-]. lia.
  - destruct (paso net ip verbose d s) as [s1|] eqn:Hd; [|discriminate].
    intros Hrun%IH. apply medida_paso in Hd. lia.
Qed.

End Terminacion.

(** ** The verbose flag *)

Section Verbose.

Variable net : red.
Variable ip : str.





End Verbose.


(** ** What a complete run returns *)

Lemma escanear_devuelve net ip verbose ds r out :
  escanear_puertos_comunes net ip verbose ds = Some (r, out) ->
  r = Ok (abiertos net ip (dict_keys PUERTOS_COMUNES)).
Proof.
  unfold escanear_puertos_comunes.
  destruct (ejecutar net ip verbose ds (inicial ip)) as [s|] eqn:Hrun;
    [|discriminate].
  apply inv_alcanzable in Hrun. apply inv_principal in Hrun.
  unfold inv_main in Hrun.
  destruct (principal s); try discriminate. intros [= <- _]. apply Hrun.
Qed.

(** The scan can always be run to its [return]. *)
Lemma escaneo_termina net ip verbose :
  exists ds out,
    escanear_puertos_comunes net ip verbose ds
    = Some (Ok (abiertos net ip (dict_keys PUERTOS_COMUNES)), out).
Proof.
  destruct (termina_desde net ip verbose (S (medida (inicial ip))) (inicial ip))
    as (ds & s & r & Hrun & Hr); [lia|apply inv_inicial|].
  exists ds, (consola s).
  assert (Hret : escanear_puertos_comunes net ip verbose ds = Some (r, consola s)).
  { unfold escanear_puertos_comunes. rewrite Hrun, Hr. reflexivity. }
  rewrite Hret. apply escanear_devuelve in Hret. congruence.
Qed.

Lemma claves_ordenadas : StronglySorted Z.lt (dict_keys PUERTOS_COMUNES).
Proof.
  unfold PUERTOS_COMUNES, dict_keys. cbn [map fst].
  repeat (apply SSorted_cons; [|repeat constructor; lia]). constructor.
Qed.

Lemma sublist_StronglySorted {A} (R : A -> A -> Prop) (l1 l2 : list A) :
  l1 `sublist_of` l2 -> StronglySorted R l2 -> StronglySorted R l1.
Proof.
  induction 1 as [|x l1 l2 Hs IH|x l1 l2 Hs IH]; intros Hl.
  - constructor.
  - apply StronglySorted_inv in Hl as [Hl Hx]. constructor; [auto|].
    apply Forall_forall. intros y Hy.
    eapply (proj1 (Forall_forall _ _) Hx), (sublist_subseteq _ _ Hs), Hy.
  - apply StronglySorted_inv in Hl as [Hl _]. auto.
Qed.

Lemma filter_puerto_abiertos net ip ps p r :
  NoDup ps -> p ∈ ps -> sondeo net ip p = Ok (Some r) ->
  filter (fun x => puerto x = p) (abiertos net ip ps) = [r].
Proof.
  assert (Hnone : forall qs, p ∉ qs ->
            filter (fun x => puerto x = p) (abiertos net ip qs) = []).
  { intros qs Hp. induction qs as [|q qs IH]; [reflexivity|].
    apply not_elem_of_cons in Hp as [Hne Hp]. cbn.
    destruct (sondeo net ip q) as [[r'|]|e] eqn:Hq; auto.
    rewrite filter_cons_False; [auto|].
    rewrite (sondeo_puerto _ _ _ _ Hq). congruence. }
  induction ps as [|q ps IH]; intros Hnd Hin Hp; [inversion Hin|].
  apply NoDup_cons in Hnd as [Hq Hnd]. cbn.
  apply elem_of_cons in Hin as [->|Hin].
  - rewrite Hp. rewrite filter_cons_True by (eapply sondeo_puerto, Hp).
    rewrite Hnone by assumption. reflexivity.
  - destruct (sondeo net ip q) as [[r'|]|e] eqn:Hr; auto.
    rewrite filter_cons_False; [auto|].
    rewrite (sondeo_puerto _ _ _ _ Hr). intros ->. contradiction.
Qed.


(** * The claims *)

(** ** The port table *)

(** C5, as stated: the table does not have 21 entries. *)
Lemma PUERTOS_COMUNES_no_son_21 : length PUERTOS_COMUNES <> 21%nat.
Proof. vm_compute. discriminate. Qed.

(** C5, amended: [PUERTOS_COMUNES] has exactly 23 entries, the ports
    21, 22, 23, 25, 53, 80, 110, 111, 135, 139, 143, 443, 445, 993, 995, 1723,
    3306, 3389, 5432, 5900, 6379, 8080 and 8443 in this order; the keys are
    pairwise distinct positive integers not above 65535. *)
Theorem PUERTOS_COMUNES_son_23 :
  length PUERTOS_COMUNES = 23%nat
  /\ dict_keys PUERTOS_COMUNES
     = [21; 22; 23; 25; 53; 80; 110; 111; 135; 139; 143; 443; 445; 993; 995;
        1723; 3306; 3389; 5432; 5900; 6379; 8080; 8443]
  /\ NoDup (dict_keys PUERTOS_COMUNES)
  /\ Forall (fun k => 0 < k <= 65535) (dict_keys PUERTOS_COMUNES).
Proof.
  split; [reflexivity|]. split; [reflexivity|]. split; [apply claves_NoDup|].
  unfold PUERTOS_COMUNES, dict_keys. cbn [map fst].
  repeat (constructor; [lia|]). constructor.
Qed.

(** ** The probe *)

(** C1: when the first connection is not established (the socket cannot be
    created, [connect_ex] answers a non-zero [errno] such as a refusal or an
    expired timeout, or it raises), [escan_puerto] returns [None]: it does
    not raise and it builds no record, whatever the kind of failure. *)
Theorem escan_puerto_sin_conexion net ip p t w :
  conecta net ip p w = false ->
  fst (escan_puerto net ip p t w) = Ok None.
Proof. apply escan_puerto_cerrado. Qed.

Lemma escan_puerto_sin_conexion_ejemplo :
  conecta red_ejemplo ip_ejemplo 22 mundo_inicial = false
  /\ fst (escan_puerto red_ejemplo ip_ejemplo 22 1 mundo_inicial) = Ok None.
Proof.
  split; [reflexivity|].
  apply (escan_puerto_sin_conexion red_ejemplo ip_ejemplo 22 1 mundo_inicial).
  reflexivity.
Defined.









(** C8, on the code: the probe of port 443 of [red_ejemplo] connects twice and
    the read times out; it returns its record with the banner
    ['No disponible'], and the second socket, descriptor 1, is still open
    then: no [close] was called on it. *)
Theorem escan_puerto_deja_un_socket_abierto :
  let w := snd (escan_puerto red_ejemplo ip_ejemplo 443 1 mundo_inicial) in
  fst (escan_puerto red_ejemplo ip_ejemplo 443 1 mundo_inicial)
  = Ok (Some {| puerto := 443;
                estado := py "abierto";
                servicio := py "HTTPS";
                banner := py "No disponible" |})
  /\ open_fds w = [1%nat]
  /\ CRecv 1 1024 ∈ log w
  /\ CClose 1 ∉ log w.
Proof.
  cbn zeta. split; [vm_compute; reflexivity|]. split; [vm_compute; reflexivity|].
  set (lg := log _). vm_compute in lg. subst lg. split.
  - do 8 apply list_elem_of_further. constructor.
  - rewrite !not_elem_of_cons. repeat split; try discriminate.
    apply not_elem_of_nil.
Qed.

(** The sibling path: when the banner is read, both sockets are closed. *)
Lemma escan_puerto_cierra_tras_leer :
  open_fds (snd (escan_puerto red_ejemplo ip_ejemplo 80 1 mundo_inicial)) = [].
Proof. vm_compute. reflexivity. Qed.

(** ** The scanner *)

(** C2: whatever the schedule, a call of [escanear_puertos_comunes] that
    returns does not raise, and its list holds the results of the probes
    that found their port open and nothing else: every entry names a port of
    [PUERTOS_COMUNES], no port is named twice, and the entries for the port
    of a successful probe are that probe's result, once. *)
Theorem escaneo_un_resultado_por_puerto_abierto net ip verbose ds r out :
  escanear_puertos_comunes net ip verbose ds = Some (r, out) ->
  exists l,
    r = Ok l
    /\ (forall x, x ∈ l <->
          exists p, p ∈ dict_keys PUERTOS_COMUNES
                    /\ sondeo net ip p = Ok (Some x))
    /\ (forall x, x ∈ l -> puerto x ∈ dict_keys PUERTOS_COMUNES)
    /\ NoDup (map puerto l)
    /\ (forall p x, p ∈ dict_keys PUERTOS_COMUNES ->
          sondeo net ip p = Ok (Some x) ->
          filter (fun y => puerto y = p) l = [x]).
Proof.
  intros Hrun%escanear_devuelve. eexists. split; [exact Hrun|].
  split; [apply elem_of_abiertos|]. split; [|split].
  - intros x (p & Hp & Hx)%elem_of_abiertos.
    rewrite (sondeo_puerto _ _ _ _ Hx). exact Hp.
  - eapply sublist_NoDup; [apply claves_NoDup|apply puertos_abiertos_sublist].
  - intros p x Hp Hx. apply filter_puerto_abiertos; auto using claves_NoDup.
Qed.

Lemma escaneo_un_resultado_por_puerto_abierto_ejemplo :
  exists r out,
    escanear_puertos_comunes red_ejemplo ip_ejemplo true plan_inverso
    = Some (r, out)
    /\ exists l,
         r = Ok l
         /\ (forall x, x ∈ l <->
               exists p, p ∈ dict_keys PUERTOS_COMUNES
                         /\ sondeo red_ejemplo ip_ejemplo p = Ok (Some x))
         /\ (forall x, x ∈ l -> puerto x ∈ dict_keys PUERTOS_COMUNES)
         /\ NoDup (map puerto l)
         /\ (forall p x, p ∈ dict_keys PUERTOS_COMUNES ->
               sondeo red_ejemplo ip_ejemplo p = Ok (Some x) ->
               filter (fun y => puerto y = p) l = [x]).
Proof.
  eexists _, _. split; [vm_compute; reflexivity|].
  eapply (escaneo_un_resultado_por_puerto_abierto red_ejemplo ip_ejemplo true
            plan_inverso).
  vm_compute. reflexivity.
Defined.

(** C4: in every state of every run at most 20 probes are in flight, on at
    most 20 worker threads; when the call has returned, no probe is in
    flight, none is queued, and each of the 23 futures has its outcome; and
    from every state of a run the call can be run to its return. *)
Theorem a_lo_sumo_20_sondeos_en_vuelo net ip verbose ds s :
  ejecutar net ip verbose ds (inicial ip) = Some s ->
  (in_flight s <= 20)%nat
  /\ (length (threads s) <= 20)%nat
  /\ (forall r, principal s = Returned r ->
        in_flight s = 0%nat
        /\ work_queue s = []
        /\ length (futures s) = length PUERTOS_COMUNES
        /\ Forall hecho (futures s))
  /\ (exists ds' s' r,
        ejecutar net ip verbose ds' s = Some s' /\ principal s' = Returned r).
Proof.
  intros Hinv%inv_alcanzable.
  pose proof (inv_threads _ _ _ Hinv) as Ht. unfold max_workers in Ht.
  pose proof (in_flight_le s) as Hle.
  split; [lia|]. split; [exact Ht|]. split.
  - intros r Hr. pose proof (inv_principal _ _ _ Hinv) as Hmn.
    unfold inv_main in Hmn. rewrite Hr in Hmn.
    destruct Hmn as (_ & Hdone & Hq & Hidle).
    split; [apply forallb_idle_in_flight, Hidle|]. split; [exact Hq|].
    split; [|exact Hdone].
    pose proof (inv_puertos _ _ _ Hinv) as Hp. rewrite Hr in Hp. cbn in Hp.
    rewrite app_nil_r in Hp. apply (f_equal length) in Hp.
    unfold dict_keys in Hp. rewrite !length_map in Hp. exact Hp.
  - apply (termina_desde net ip verbose (S (medida s))); [lia|exact Hinv].
Qed.

Lemma a_lo_sumo_20_sondeos_en_vuelo_ejemplo :
  (in_flight estado_veinte = 20)%nat
  /\ length (work_queue estado_veinte) = 3%nat
  /\ (in_flight estado_veinte <= 20)%nat
  /\ (length (threads estado_veinte) <= 20)%nat
  /\ (forall r, principal estado_veinte = Returned r ->
        in_flight estado_veinte = 0%nat
        /\ work_queue estado_veinte = []
        /\ length (futures estado_veinte) = length PUERTOS_COMUNES
        /\ Forall hecho (futures estado_veinte))
  /\ (exists ds' s' r,
        ejecutar red_ejemplo ip_ejemplo true ds' estado_veinte = Some s'
        /\ principal s' = Returned r).
Proof.
  split; [reflexivity|]. split; [reflexivity|].
  apply (a_lo_sumo_20_sondeos_en_vuelo red_ejemplo ip_ejemplo true
           (take 43 plan_inverso) estado_veinte).
  vm_compute. reflexivity.
Defined.


(** C10: two calls on the same target return the same list whatever their
    schedules, that is, in whatever order the probes complete: the open
    ports in the order of [PUERTOS_COMUNES], which is ascending. *)
Theorem escaneo_en_orden_de_tabla net ip v1 v2 ds1 ds2 r1 r2 out1 out2 :
  escanear_puertos_comunes net ip v1 ds1 = Some (r1, out1) ->
  escanear_puertos_comunes net ip v2 ds2 = Some (r2, out2) ->
  r1 = r2
  /\ exists l,
       r1 = Ok l
       /\ l = abiertos net ip (dict_keys PUERTOS_COMUNES)
       /\ map puerto l `sublist_of` dict_keys PUERTOS_COMUNES
       /\ StronglySorted Z.lt (map puerto l).
Proof.
  intros H1%escanear_devuelve H2%escanear_devuelve.
  split; [congruence|]. eexists. split; [exact H1|]. split; [reflexivity|].
  split; [apply puertos_abiertos_sublist|].
  eapply sublist_StronglySorted;
    [apply puertos_abiertos_sublist|apply claves_ordenadas].
Qed.

Lemma escaneo_en_orden_de_tabla_ejemplo :
  exists r1 r2 out1 out2,
    escanear_puertos_comunes red_ejemplo ip_ejemplo true plan_secuencial
    = Some (r1, out1)
    /\ escanear_puertos_comunes red_ejemplo ip_ejemplo false plan_inverso
       = Some (r2, out2)
    /\ r1 = r2
    /\ exists l,
         r1 = Ok l
         /\ l = abiertos red_ejemplo ip_ejemplo (dict_keys PUERTOS_COMUNES)
         /\ map puerto l `sublist_of` dict_keys PUERTOS_COMUNES
         /\ StronglySorted Z.lt (map puerto l).
Proof.
  eexists _, _, _, _. split; [vm_compute; reflexivity|].
  split; [vm_compute; reflexivity|].
  eapply (escaneo_en_orden_de_tabla red_ejemplo ip_ejemplo true false
            plan_secuencial plan_inverso);
    vm_compute; reflexivity.
Defined.
